(** * storage/client.go: settings, storage options and their resolution

    A shallow embedding of the transport-agnostic part of the storage client:
    the [settings] struct, the four [storageOption] implementations, the
    resolver [resolveOptions] and the two builders [initSettings] and
    [callSettings], together with the method set of the [storageClient]
    interface and the results each method is declared with.

    The Go code works on [*settings] pointers, so the embedding threads a
    heap of settings objects through every function and keeps nil pointers,
    nil interface values and the run-time panics they cause. *)

From stdpp Require Import gmap list option.

(** ** Go values *)

(** Addresses of heap objects; a pointer is an address or nil ([None]).
    Objects of different types live in different stores: the heap below
    holds the [settings] objects only, and the addresses kept in a
    [*retryConfig] or in a slice header point into stores that no function
    of client.go reads or writes. *)
Definition addr := positive.
Definition ptr := option addr.

(** The two element types of the slices stored in [settings]:
    [gax.CallOption] and [option.ClientOption].  Both are interfaces of other
    packages; no function of client.go looks at an element. *)
Variant elem := gax_CallOption | option_ClientOption.

(** A slice value is its header: backing array, length and capacity.  The
    nil slice has no backing array. *)
Record slice (e : elem) := mkSlice {
  slice_array : ptr;
  slice_len : Z;
  slice_cap : Z
}.
Arguments mkSlice {e} _ _ _.
Arguments slice_array {e} _.
Arguments slice_len {e} _.
Arguments slice_cap {e} _.

Definition nil_slice {e : elem} : slice e := mkSlice None 0 0.

(** ** The settings struct *)

Module settings.

(** [retry] is a [*retryConfig]: only the pointer is stored. *)
Record t := mk {
  retry : ptr;
  gax : slice gax_CallOption;
  idempotent : bool;
  clientOption : slice option_ClientOption
}.

(** [settings{}], the zero value. *)
Definition zero : t :=
  {| retry := None; gax := nil_slice; idempotent := false;
     clientOption := nil_slice |}.

(** The four field assignments [s.f = x] on a settings value. *)
Definition set_retry (x : ptr) (v : t) : t :=
  {| retry := x; gax := gax v; idempotent := idempotent v;
     clientOption := clientOption v |}.

Definition set_gax (x : slice gax_CallOption) (v : t) : t :=
  {| retry := retry v; gax := x; idempotent := idempotent v;
     clientOption := clientOption v |}.

Definition set_idempotent (x : bool) (v : t) : t :=
  {| retry := retry v; gax := gax v; idempotent := x;
     clientOption := clientOption v |}.

Definition set_clientOption (x : slice option_ClientOption) (v : t) : t :=
  {| retry := retry v; gax := gax v; idempotent := idempotent v;
     clientOption := x |}.

End settings.

(** ** Heap and the monad of Go computations *)

(** A computation either returns or panics; the heap survives a panic (a
    deferred function could still look at it). *)
Inductive outcome (A : Type) : Type :=
| Ret (a : A)
| Panic.
Arguments Ret {A} a.
Arguments Panic {A}.

Definition go (A : Type) : Type :=
  gmap addr settings.t → outcome A * gmap addr settings.t.

Definition ret {A : Type} (a : A) : go A := λ h, (Ret a, h).

Definition panic {A : Type} : go A := λ h, (Panic, h).

Definition bind {A B : Type} (m : go A) (k : A → go B) : go B :=
  λ h, match m h with
       | (Ret a, h') => k a h'
       | (Panic, h') => (Panic, h')
       end.

Notation "'let*' x ':=' m 'in' k" := (bind m (λ x, k))
  (at level 10, x name, m at level 100, k at level 200).
Notation "m ';;' k" := (bind m (λ _, k))
  (at level 100, k at level 200, right associativity).

(** [&settings{...}] and escaping locals: a new object at an unused address. *)
Definition new (v : settings.t) : go ptr :=
  λ h, let a := fresh (dom h) in (Ret (Some a), <[a := v]> h).

(** [*p]: reading through nil panics.  (Go has no dangling pointers; an
    address without an object is treated like nil.) *)
Definition load (p : ptr) : go settings.t :=
  λ h, match p ≫= (h !!.) with
       | Some v => (Ret v, h)
       | None => (Panic, h)
       end.

(** [p.f = x], with the field assignment given as [w]: writing through nil
    panics and changes nothing. *)
Definition assign (p : ptr) (w : settings.t → settings.t) : go unit :=
  λ h, match p ≫= (λ a, pair a <$> h !! a) with
       | Some (a, v) => (Ret tt, <[a := w v]> h)
       | None => (Panic, h)
       end.

(** [o.f] on a pointer receiver [o] of an option struct.  The option structs
    are written once, by their constructor, and never again, so a pointer to
    one is modelled by the struct it points to, or nil. *)
Definition deref {A : Type} (o : option A) : go A :=
  match o with
  | Some r => ret r
  | None => panic
  end.

(** ** The storageOption implementations *)

Module gaxOption.
Record t := mk { opts : slice gax_CallOption }.

(** [func (o *gaxOption) Apply(s *settings) { s.gax = o.opts }] *)
Definition Apply (o : option t) (s : ptr) : go unit :=
  let* r := deref o in assign s (settings.set_gax (opts r)).
End gaxOption.

Module retryOption.
Record t := mk { rc : ptr }.

(** [func (o *retryOption) Apply(s *settings) { s.retry = o.rc }] *)
Definition Apply (o : option t) (s : ptr) : go unit :=
  let* r := deref o in assign s (settings.set_retry (rc r)).
End retryOption.

Module idempotentOption.
Record t := mk { idempotency : bool }.

(** [func (o *idempotentOption) Apply(s *settings) { s.idempotent = o.idempotency }] *)
Definition Apply (o : option t) (s : ptr) : go unit :=
  let* r := deref o in assign s (settings.set_idempotent (idempotency r)).
End idempotentOption.

Module clientOption.
Record t := mk { opts : slice option_ClientOption }.

(** [func (o *clientOption) Apply(s *settings) { s.clientOption = o.opts }] *)
Definition Apply (o : option t) (s : ptr) : go unit :=
  let* r := deref o in assign s (settings.set_clientOption (opts r)).
End clientOption.

(** A value of interface type [storageOption]: the nil interface, or a
    pointer (possibly nil) to one of the four implementing structs.  The
    interface is unexported and so is [settings], the type of [Apply]'s
    parameter: these four are all the implementations there can be. *)
Inductive storageOption :=
| nil_storageOption
| of_gaxOption (o : option gaxOption.t)
| of_retryOption (o : option retryOption.t)
| of_idempotentOption (o : option idempotentOption.t)
| of_clientOption (o : option clientOption.t).

(** [o.Apply(s)]: dynamic dispatch; a call on the nil interface panics. *)
Definition Apply (o : storageOption) (s : ptr) : go unit :=
  match o with
  | nil_storageOption => panic
  | of_gaxOption p => gaxOption.Apply p s
  | of_retryOption p => retryOption.Apply p s
  | of_idempotentOption p => idempotentOption.Apply p s
  | of_clientOption p => clientOption.Apply p s
  end.

(** The constructors. *)
Definition withGAXOptions (opts : slice gax_CallOption) : storageOption :=
  of_gaxOption (Some (gaxOption.mk opts)).

Definition withRetryConfig (rc : ptr) : storageOption :=
  of_retryOption (Some (retryOption.mk rc)).

Definition idempotent (i : bool) : storageOption :=
  of_idempotentOption (Some (idempotentOption.mk i)).

Definition withClientOptions (opts : slice option_ClientOption) : storageOption :=
  of_clientOption (Some (clientOption.mk opts)).

(** ** Resolution *)

(** [for _, o := range opts { o.Apply(s) }] *)
Fixpoint resolveOptions (s : ptr) (opts : list storageOption) : go unit :=
  match opts with
  | [] => ret tt
  | o :: rest => Apply o s ;; resolveOptions s rest
  end.

(** [s := &settings{}; resolveOptions(s, opts...); return s] *)
Definition initSettings (opts : list storageOption) : go ptr :=
  let* s := new settings.zero in
  resolveOptions s opts ;;
  ret s.

(** [if defaults == nil { return nil }; cs := *defaults;
     resolveOptions(&cs, opts...); return &cs] *)
Definition callSettings (defaults : ptr) (opts : list storageOption) : go ptr :=
  match defaults with
  | None => ret None
  | Some _ =>
      let* v := load defaults in
      let* cs := new v in
      resolveOptions cs opts ;;
      ret cs
  end.

(** ** The storageClient interface *)

Module storageClient.

(** The methods of the interface, in declaration order. *)
Variant method :=
| GetServiceAccount | CreateBucket | ListBuckets
| DeleteBucket | GetBucket | UpdateBucket | LockBucketRetentionPolicy
| ListObjects
| DeleteObject | GetObject | UpdateObject
| DeleteDefaultObjectACL | ListDefaultObjectACLs | UpdateDefaultObjectACL
| DeleteBucketACL | ListBucketACLs | UpdateBucketACL
| DeleteObjectACL | ListObjectACLs | UpdateObjectACL
| ComposeObject | RewriteObject
| OpenReader | OpenWriter
| GetIamPolicy | SetIamPolicy | TestIamPermissions
| GetHMACKey | ListHMACKey | UpdateHMACKey | CreateHMACKey | DeleteHMACKey.

(** The types that occur in result position. *)
Variant result_ty :=
| ty_string | ty_string_slice
| ty_BucketAttrs_ptr | ty_BucketIterator_ptr
| ty_ObjectAttrs_ptr | ty_ObjectIterator_ptr
| ty_ACLRule_ptr | ty_ACLRule_slice
| ty_rewriteObjectResponse_ptr
| ty_Policy_ptr
| ty_HMACKey_ptr | ty_HMACKeysIterator_ptr
| ty_error.

(** The result list of each method, as declared. *)
Definition results (m : method) : list result_ty :=
  match m with
  | GetServiceAccount => [ty_string; ty_error]
  | CreateBucket => [ty_BucketAttrs_ptr; ty_error]
  | ListBuckets => [ty_BucketIterator_ptr; ty_error]
  | DeleteBucket => [ty_error]
  | GetBucket => [ty_BucketAttrs_ptr; ty_error]
  | UpdateBucket => [ty_BucketAttrs_ptr; ty_error]
  | LockBucketRetentionPolicy => [ty_error]
  | ListObjects => [ty_ObjectIterator_ptr; ty_error]
  | DeleteObject => [ty_error]
  | GetObject => [ty_ObjectAttrs_ptr; ty_error]
  | UpdateObject => [ty_ObjectAttrs_ptr; ty_error]
  | DeleteDefaultObjectACL => [ty_error]
  | ListDefaultObjectACLs => [ty_ACLRule_slice; ty_error]
  | UpdateDefaultObjectACL => [ty_ACLRule_ptr; ty_error]
  | DeleteBucketACL => [ty_error]
  | ListBucketACLs => [ty_ACLRule_slice; ty_error]
  | UpdateBucketACL => [ty_ACLRule_ptr; ty_error]
  | DeleteObjectACL => [ty_error]
  | ListObjectACLs => [ty_ACLRule_slice; ty_error]
  | UpdateObjectACL => [ty_ACLRule_ptr; ty_error]
  | ComposeObject => [ty_ObjectAttrs_ptr; ty_error]
  | RewriteObject => [ty_rewriteObjectResponse_ptr; ty_error]
  | OpenReader => [ty_error]
  | OpenWriter => [ty_error]
  | GetIamPolicy => [ty_Policy_ptr; ty_error]
  | SetIamPolicy => [ty_error]
  | TestIamPermissions => [ty_string_slice; ty_error]
  | GetHMACKey => [ty_HMACKey_ptr; ty_error]
  | ListHMACKey => [ty_HMACKeysIterator_ptr]
  | UpdateHMACKey => [ty_HMACKey_ptr; ty_error]
  | CreateHMACKey => [ty_HMACKey_ptr; ty_error]
  | DeleteHMACKey => [ty_error]
  end.

End storageClient.

(** ** Denotation of option sequences on a settings value *)

(** An option that can be applied: a non-nil interface value holding a
    non-nil pointer. *)
Definition well_formed (o : storageOption) : bool :=
  match o with
  | of_gaxOption (Some _) | of_retryOption (Some _)
  | of_idempotentOption (Some _) | of_clientOption (Some _) => true
  | _ => false
  end.

(** The field an applicable option overwrites, as a function on values. *)
Definition write (o : storageOption) (v : settings.t) : settings.t :=
  match o with
  | of_gaxOption (Some r) => settings.set_gax (gaxOption.opts r) v
  | of_retryOption (Some r) => settings.set_retry (retryOption.rc r) v
  | of_idempotentOption (Some r) =>
      settings.set_idempotent (idempotentOption.idempotency r) v
  | of_clientOption (Some r) => settings.set_clientOption (clientOption.opts r) v
  | _ => v
  end.

(** The loop of [resolveOptions] on the value its target holds: it stops at
    the first option that cannot be applied. *)
Fixpoint run (opts : list storageOption) (v : settings.t)
  : outcome unit * settings.t :=
  match opts with
  | [] => (Ret tt, v)
  | o :: rest => if well_formed o then run rest (write o v) else (Panic, v)
  end.

(** What a builder hands back: the settings its result points to. *)
Definition pointee (r : outcome ptr * gmap addr settings.t)
  : outcome (option settings.t) :=
  match r with
  | (Ret p, h) => Ret (p ≫= (h !!.))
  | (Panic, _) => Panic
  end.

(** ** Last writer, stated on the sequence *)

(** The payload an option carries for each field, if it writes that field. *)
Definition retry_payload (o : storageOption) : option ptr :=
  match o with
  | of_retryOption (Some r) => Some (retryOption.rc r)
  | _ => None
  end.

Definition gax_payload (o : storageOption) : option (slice gax_CallOption) :=
  match o with
  | of_gaxOption (Some r) => Some (gaxOption.opts r)
  | _ => None
  end.

Definition idempotent_payload (o : storageOption) : option bool :=
  match o with
  | of_idempotentOption (Some r) => Some (idempotentOption.idempotency r)
  | _ => None
  end.

Definition clientOption_payload (o : storageOption)
  : option (slice option_ClientOption) :=
  match o with
  | of_clientOption (Some r) => Some (clientOption.opts r)
  | _ => None
  end.

(** The payload of the last option of [opts] that writes the field, or [old]
    when none does. *)
Definition last_written {A : Type} (payload : storageOption → option A)
    (opts : list storageOption) (old : A) : A :=
  default old (list.last (omap payload opts)).

(** ** The field an option writes *)

Variant field := f_retry | f_gax | f_idempotent | f_clientOption.

Global Instance field_eq_dec : EqDecision field.
Proof. solve_decision. Defined.

(** The field of [settings] that the [Apply] method of the option's type
    assigns; the nil interface value has no method to call. *)
Definition target (o : storageOption) : option field :=
  match o with
  | nil_storageOption => None
  | of_gaxOption _ => Some f_gax
  | of_retryOption _ => Some f_retry
  | of_idempotentOption _ => Some f_idempotent
  | of_clientOption _ => Some f_clientOption
  end.

(** ** Sample values *)

Definition sample_defaults : settings.t :=
  {| settings.retry := Some 5%positive;
     settings.gax := mkSlice (Some 6%positive) 2 4;
     settings.idempotent := false;
     settings.clientOption := nil_slice |}.

Definition sample_heap : gmap addr settings.t := {[ 1%positive := sample_defaults ]}.

Definition sample_opts : list storageOption :=
  [ idempotent true;
    withRetryConfig (Some 7%positive);
    withGAXOptions (mkSlice (Some 8%positive) 1 1);
    idempotent false;
    withRetryConfig None ].

(** * Properties *)

(** ** Monad steps on a live target *)

Section steps.
Context (s : addr) (S : settings.t) (h : gmap addr settings.t).
Hypothesis live : h !! s = Some S.

Lemma load_live : load (Some s) h = (Ret S, h).
Proof using live. unfold load. simpl. by rewrite live. Qed.

Lemma assign_live w : assign (Some s) w h = (Ret tt, <[s := w S]> h).
Proof using live. unfold assign. simpl. by rewrite live. Qed.

(** One [Apply] on a live target: the write, or a panic that leaves the
    heap as it was. *)
Lemma Apply_live o :
  Apply o (Some s) h =
    if well_formed o then (Ret tt, <[s := write o S]> h) else (Panic, h).
Proof using live.
  destruct o as [|[r|]|[r|]|[r|]|[r|]]; simpl; try reflexivity;
    unfold gaxOption.Apply, retryOption.Apply, idempotentOption.Apply,
      clientOption.Apply, bind, deref, ret; simpl;
    apply assign_live.
Qed.
End steps.

Lemma new_fresh v h :
  ∃ a, new v h = (Ret (Some a), <[a := v]> h) ∧ h !! a = None.
Proof.
  exists (fresh (dom h)). split; [reflexivity|].
  apply not_elem_of_dom, is_fresh.
Qed.

(** The loop on a live target is [run] on the value it holds; nothing but the
    target changes. *)
Lemma resolveOptions_run opts : ∀ s S h,
  h !! s = Some S →
  resolveOptions (Some s) opts h = ((run opts S).1, <[s := (run opts S).2]> h).
Proof.
  induction opts as [|o rest IH]; intros s S h live; simpl.
  - unfold ret. by rewrite insert_id.
  - unfold bind. rewrite (Apply_live s S h live o).
    destruct (well_formed o).
    + rewrite (IH s (write o S)) by apply lookup_insert_eq.
      by rewrite insert_insert_eq.
    + simpl. by rewrite insert_id.
Qed.

Lemma run_well_formed opts : ∀ S,
  Forall well_formed opts →
  run opts S = (Ret tt, foldl (λ v o, write o v) S opts).
Proof.
  induction opts as [|o rest IH]; intros S wf; simpl; [done|].
  inversion wf as [|? ? Ho Hrest]; subst.
  destruct (well_formed o); [|done]. by apply IH.
Qed.

Lemma run_app xs : ∀ ys S,
  Forall well_formed xs →
  run (xs ++ ys) S = run ys (foldl (λ v o, write o v) S xs).
Proof.
  induction xs as [|o rest IH]; intros ys S wf; simpl; [done|].
  inversion wf as [|? ? Ho Hrest]; subst.
  destruct (well_formed o); [|done]. by apply IH.
Qed.

(** ** Last writer wins, field by field *)

Section last_writer.
Context {A : Type} (get : settings.t → A) (payload : storageOption → option A).
Hypothesis get_write : ∀ o v, get (write o v) = default (get v) (payload o).

Lemma foldl_write_last opts : ∀ S,
  get (foldl (λ v o, write o v) S opts) = last_written payload opts (get S).
Proof using get_write.
  unfold last_written.
  induction opts as [|o rest IH]; intros S; [done|].
  cbn [foldl]. rewrite IH, get_write.
  change (omap payload (o :: rest))
    with (match payload o with
          | Some x => x :: omap payload rest
          | None => omap payload rest
          end).
  destruct (payload o) as [x|]; [|done].
  rewrite last_cons. by destruct (list.last (omap payload rest)).
Qed.
End last_writer.

Lemma get_write_retry o v :
  settings.retry (write o v) = default (settings.retry v) (retry_payload o).
Proof. by destruct o as [|[r|]|[r|]|[r|]|[r|]]. Qed.

Lemma get_write_gax o v :
  settings.gax (write o v) = default (settings.gax v) (gax_payload o).
Proof. by destruct o as [|[r|]|[r|]|[r|]|[r|]]. Qed.

Lemma get_write_idempotent o v :
  settings.idempotent (write o v)
  = default (settings.idempotent v) (idempotent_payload o).
Proof. by destruct o as [|[r|]|[r|]|[r|]|[r|]]. Qed.

Lemma get_write_clientOption o v :
  settings.clientOption (write o v)
  = default (settings.clientOption v) (clientOption_payload o).
Proof. by destruct o as [|[r|]|[r|]|[r|]|[r|]]. Qed.

(** ** The builders on a live default *)

(** [callSettings] on a live default: the copy lands at an unused address and
    the loop runs on the copy. *)
Lemma callSettings_run d D opts h :
  h !! d = Some D →
  ∃ c, h !! c = None ∧ c ≠ d ∧
    callSettings (Some d) opts h =
      (match (run opts D).1 with Ret _ => Ret (Some c) | Panic => Panic end,
       <[c := (run opts D).2]> h).
Proof.
  intros live. unfold callSettings, bind.
  rewrite (load_live d D h live).
  destruct (new_fresh D h) as (c & -> & Hc).
  exists c. split; [done|]. split; [congruence|].
  rewrite (resolveOptions_run opts c D) by apply lookup_insert_eq.
  rewrite insert_insert_eq. simpl.
  by destruct (run opts D).1.
Qed.

Lemma initSettings_run opts h :
  ∃ c, h !! c = None ∧
    initSettings opts h =
      (match (run opts settings.zero).1 with
       | Ret _ => Ret (Some c) | Panic => Panic end,
       <[c := (run opts settings.zero).2]> h).
Proof.
  unfold initSettings, bind.
  destruct (new_fresh settings.zero h) as (c & -> & Hc).
  exists c. split; [done|].
  rewrite (resolveOptions_run opts c settings.zero) by apply lookup_insert_eq.
  rewrite insert_insert_eq. simpl.
  by destruct (run opts settings.zero).1.
Qed.

(** The constructors of client.go only build options that can be applied. *)
Lemma constructors_well_formed :
  (∀ x, well_formed (withGAXOptions x))
  ∧ (∀ x, well_formed (withRetryConfig x))
  ∧ (∀ x, well_formed (idempotent x))
  ∧ (∀ x, well_formed (withClientOptions x)).
Proof. by repeat split. Qed.

Lemma sample_opts_well_formed : Forall well_formed sample_opts.
Proof. repeat constructor. Qed.

(** ** Claims about the call-scoped builder *)

(** C1: for non-nil defaults [d] holding [D] and any option sequence, the
    heap after [callSettings] still holds [D] at [d] (so each of its four
    fields is what it was), every other object that existed before the call
    is unchanged too, and this is so whether the call returns or panics on an
    option that cannot be applied; with applicable options the call returns a
    pointer other than [d]. *)
Theorem callSettings_preserves_defaults d D opts h :
  h !! d = Some D →
  (callSettings (Some d) opts h).2 !! d = Some D
  ∧ (∀ a, is_Some (h !! a) → (callSettings (Some d) opts h).2 !! a = h !! a)
  ∧ (Forall well_formed opts →
     ∃ c, (callSettings (Some d) opts h).1 = Ret (Some c) ∧ c ≠ d).
Proof.
  intros live.
  destruct (callSettings_run d D opts h live) as (c & Hc & Hcd & ->). simpl.
  split; [by rewrite lookup_insert_ne|]. split.
  - intros a [x Hx]. rewrite lookup_insert_ne; [done|congruence].
  - intros wf. exists c. by rewrite (run_well_formed opts D wf).
Qed.

Lemma callSettings_preserves_defaults_witness :
  (callSettings (Some 1%positive) sample_opts sample_heap).2 !! 1%positive
    = Some sample_defaults
  ∧ (∀ a, is_Some (sample_heap !! a) →
       (callSettings (Some 1%positive) sample_opts sample_heap).2 !! a
       = sample_heap !! a)
  ∧ (Forall well_formed sample_opts →
     ∃ c, (callSettings (Some 1%positive) sample_opts sample_heap).1
            = Ret (Some c) ∧ c ≠ 1%positive).
Proof.
  apply (callSettings_preserves_defaults 1%positive sample_defaults
           sample_opts sample_heap).
  reflexivity.
Defined.

(** C3: with nil defaults [callSettings] returns nil for every option
    sequence, even one holding options that cannot be applied, and touches
    nothing; with defaults that hold the zero settings the same call never
    returns nil, and with no options it returns a pointer to a zero
    settings. *)
Theorem callSettings_nil_defaults opts h :
  callSettings None opts h = (Ret None, h)
  ∧ (∀ d, (callSettings (Some d) opts (<[d := settings.zero]> h)).1 ≠ Ret None)
  ∧ (∀ d, pointee (callSettings (Some d) [] (<[d := settings.zero]> h))
          = Ret (Some settings.zero)).
Proof.
  split; [reflexivity|]. split; intros d.
  - destruct (callSettings_run d settings.zero opts (<[d := settings.zero]> h))
      as (c & _ & _ & ->); [apply lookup_insert_eq|].
    simpl. by destruct (run opts settings.zero).1.
  - destruct (callSettings_run d settings.zero [] (<[d := settings.zero]> h))
      as (c & _ & _ & ->); [apply lookup_insert_eq|].
    simpl. by rewrite lookup_insert_eq.
Qed.

(** C5: with no options, [resolveOptions] returns and leaves the heap, hence
    its target, as it was; [callSettings] on defaults holding [D] returns a
    pointer to a new object that holds [D]. *)
Theorem empty_sequence_is_identity d D h :
  h !! d = Some D →
  resolveOptions (Some d) [] h = (Ret tt, h)
  ∧ ∃ c, callSettings (Some d) [] h = (Ret (Some c), <[c := D]> h)
         ∧ h !! c = None
         ∧ pointee (callSettings (Some d) [] h) = Ret (Some D).
Proof.
  intros live. split; [reflexivity|].
  destruct (callSettings_run d D [] h live) as (c & Hc & Hcd & ->). simpl.
  exists c. repeat split; [done|]. by rewrite lookup_insert_eq.
Qed.

Lemma empty_sequence_is_identity_witness :
  resolveOptions (Some 1%positive) [] sample_heap = (Ret tt, sample_heap)
  ∧ ∃ c, callSettings (Some 1%positive) [] sample_heap
           = (Ret (Some c), <[c := sample_defaults]> sample_heap)
         ∧ sample_heap !! c = None
         ∧ pointee (callSettings (Some 1%positive) [] sample_heap)
           = Ret (Some sample_defaults).
Proof.
  apply (empty_sequence_is_identity 1%positive sample_defaults sample_heap).
  reflexivity.
Defined.

(** C6: from defaults whose idempotent field is false, [callSettings] with
    [withRetryConfig(R), idempotent(true)] returns a pointer to a new
    settings with idempotent true and retry [R] (the other two fields are the
    defaults'), and afterwards the defaults still hold idempotent false. *)
Theorem callSettings_retry_then_idempotent R d D h :
  h !! d = Some D →
  settings.idempotent D = false →
  ∃ c cs h',
    callSettings (Some d) [withRetryConfig R; idempotent true] h
      = (Ret (Some c), h')
    ∧ h' !! c = Some cs
    ∧ settings.idempotent cs = true
    ∧ settings.retry cs = R
    ∧ settings.gax cs = settings.gax D
    ∧ settings.clientOption cs = settings.clientOption D
    ∧ settings.idempotent <$> h' !! d = Some false.
Proof.
  intros live Hidem.
  destruct (callSettings_run d D [withRetryConfig R; idempotent true] h live)
    as (c & Hc & Hcd & ->). simpl.
  exists c, (settings.set_idempotent true (settings.set_retry R D)).
  eexists. split; [reflexivity|].
  rewrite lookup_insert_eq, lookup_insert_ne, live by done. simpl.
  rewrite Hidem. by repeat split.
Qed.

Lemma callSettings_retry_then_idempotent_witness :
  ∃ c cs h',
    callSettings (Some 1%positive)
      [withRetryConfig (Some 9%positive); idempotent true] sample_heap
      = (Ret (Some c), h')
    ∧ h' !! c = Some cs
    ∧ settings.idempotent cs = true
    ∧ settings.retry cs = Some 9%positive
    ∧ settings.gax cs = settings.gax sample_defaults
    ∧ settings.clientOption cs = settings.clientOption sample_defaults
    ∧ settings.idempotent <$> h' !! 1%positive = Some false.
Proof.
  apply (callSettings_retry_then_idempotent (Some 9%positive) 1%positive
           sample_defaults sample_heap); reflexivity.
Defined.

(** ** Claims about options and their resolution *)

(** C4: on a live target holding [S], [Apply] of each of the four option
    kinds (with a non-nil receiver) returns and leaves a heap that differs
    from the one before only at the target, which now holds [S] with the
    option's own field replaced by the payload and the three other fields as
    they were; the value written is the payload alone, whatever [S] holds. *)
Theorem Apply_writes_one_field s S h :
  h !! s = Some S →
  (∀ r, Apply (of_gaxOption (Some r)) (Some s) h =
        (Ret tt,
         <[s := {| settings.retry := settings.retry S;
                   settings.gax := gaxOption.opts r;
                   settings.idempotent := settings.idempotent S;
                   settings.clientOption := settings.clientOption S |}]> h))
  ∧ (∀ r, Apply (of_retryOption (Some r)) (Some s) h =
        (Ret tt,
         <[s := {| settings.retry := retryOption.rc r;
                   settings.gax := settings.gax S;
                   settings.idempotent := settings.idempotent S;
                   settings.clientOption := settings.clientOption S |}]> h))
  ∧ (∀ r, Apply (of_idempotentOption (Some r)) (Some s) h =
        (Ret tt,
         <[s := {| settings.retry := settings.retry S;
                   settings.gax := settings.gax S;
                   settings.idempotent := idempotentOption.idempotency r;
                   settings.clientOption := settings.clientOption S |}]> h))
  ∧ (∀ r, Apply (of_clientOption (Some r)) (Some s) h =
        (Ret tt,
         <[s := {| settings.retry := settings.retry S;
                   settings.gax := settings.gax S;
                   settings.idempotent := settings.idempotent S;
                   settings.clientOption := clientOption.opts r |}]> h)).
Proof.
  intros live.
  repeat split; intros r; by rewrite (Apply_live s S h live).
Qed.

Lemma Apply_writes_one_field_witness :
  Apply (idempotent true) (Some 1%positive) sample_heap =
    (Ret tt,
     <[1%positive := {| settings.retry := Some 5%positive;
                        settings.gax := mkSlice (Some 6%positive) 2 4;
                        settings.idempotent := true;
                        settings.clientOption := nil_slice |}]> sample_heap).
Proof.
  destruct (Apply_writes_one_field 1%positive sample_defaults sample_heap)
    as (_ & _ & Hidem & _); [reflexivity|].
  exact (Hidem (idempotentOption.mk true)).
Defined.

(** C2: on a live target holding [S], [resolveOptions] with applicable
    options returns, changes the target only, and leaves in each field the
    payload of the last option of the sequence that writes the field, or the
    field of [S] when no option writes it; the options are taken in order,
    none skipped: resolving a longer sequence is resolving the rest from the
    state the first part left. *)
Theorem resolveOptions_last_writer_wins s S opts h :
  h !! s = Some S →
  Forall well_formed opts →
  ∃ S',
    resolveOptions (Some s) opts h = (Ret tt, <[s := S']> h)
    ∧ settings.retry S' = last_written retry_payload opts (settings.retry S)
    ∧ settings.gax S' = last_written gax_payload opts (settings.gax S)
    ∧ settings.idempotent S'
      = last_written idempotent_payload opts (settings.idempotent S)
    ∧ settings.clientOption S'
      = last_written clientOption_payload opts (settings.clientOption S)
    ∧ ∀ more, resolveOptions (Some s) (opts ++ more) h
              = resolveOptions (Some s) more (<[s := S']> h).
Proof.
  intros live wf.
  exists (foldl (λ v o, write o v) S opts).
  split.
  { by rewrite (resolveOptions_run opts s S h live), (run_well_formed opts S wf). }
  split; [apply (foldl_write_last _ _ get_write_retry)|].
  split; [apply (foldl_write_last _ _ get_write_gax)|].
  split; [apply (foldl_write_last _ _ get_write_idempotent)|].
  split; [apply (foldl_write_last _ _ get_write_clientOption)|].
  intros more.
  rewrite (resolveOptions_run (opts ++ more) s S h live), (run_app opts more S wf).
  rewrite (resolveOptions_run more s (foldl (λ v o, write o v) S opts))
    by apply lookup_insert_eq.
  by rewrite insert_insert_eq.
Qed.

Lemma resolveOptions_last_writer_wins_witness :
  ∃ S',
    resolveOptions (Some 1%positive) sample_opts sample_heap
      = (Ret tt, <[1%positive := S']> sample_heap)
    ∧ settings.retry S'
      = last_written retry_payload sample_opts (settings.retry sample_defaults)
    ∧ settings.gax S'
      = last_written gax_payload sample_opts (settings.gax sample_defaults)
    ∧ settings.idempotent S'
      = last_written idempotent_payload sample_opts
          (settings.idempotent sample_defaults)
    ∧ settings.clientOption S'
      = last_written clientOption_payload sample_opts
          (settings.clientOption sample_defaults)
    ∧ ∀ more, resolveOptions (Some 1%positive) (sample_opts ++ more) sample_heap
              = resolveOptions (Some 1%positive) more
                  (<[1%positive := S']> sample_heap).
Proof.
  apply (resolveOptions_last_writer_wins 1%positive sample_defaults
           sample_opts sample_heap).
  - reflexivity.
  - repeat constructor.
Defined.

(** The sample sequence, resolved: the last retry option (a nil retry
    config), the only gax option and the last idempotent option win; no
    option writes clientOption. *)
Example sample_opts_resolved :
  (resolveOptions (Some 1%positive) sample_opts sample_heap).2 !! 1%positive
  = Some {| settings.retry := None;
            settings.gax := mkSlice (Some 8%positive) 1 1;
            settings.idempotent := false;
            settings.clientOption := nil_slice |}.
Proof. reflexivity. Qed.

(** C9: resolution does not fail: on a live target, [Apply] of an applicable
    option returns, and [resolveOptions] over a sequence of applicable
    options returns, leaving a settings value in the target. *)
Theorem resolveOptions_total s S o opts h :
  h !! s = Some S →
  well_formed o →
  Forall well_formed opts →
  (∃ S', Apply o (Some s) h = (Ret tt, <[s := S']> h))
  ∧ (∃ S', resolveOptions (Some s) opts h = (Ret tt, <[s := S']> h)
           ∧ (resolveOptions (Some s) opts h).2 !! s = Some S').
Proof.
  intros live wfo wf. split.
  - exists (write o S). rewrite (Apply_live s S h live).
    by destruct (well_formed o).
  - exists (foldl (λ v o, write o v) S opts).
    rewrite (resolveOptions_run opts s S h live), (run_well_formed opts S wf).
    split; [done|]. apply lookup_insert_eq.
Qed.

Lemma resolveOptions_total_witness :
  (∃ S', Apply (withRetryConfig None) (Some 1%positive) sample_heap
         = (Ret tt, <[1%positive := S']> sample_heap))
  ∧ (∃ S', resolveOptions (Some 1%positive) sample_opts sample_heap
           = (Ret tt, <[1%positive := S']> sample_heap)
           ∧ (resolveOptions (Some 1%positive) sample_opts sample_heap).2
               !! 1%positive = Some S').
Proof.
  apply (resolveOptions_total 1%positive sample_defaults
           (withRetryConfig None) sample_opts sample_heap).
  - reflexivity.
  - exact I.
  - repeat constructor.
Defined.

(** What the hypotheses of C9 keep out: the nil interface value, a nil
    receiver and a nil target each make [Apply] panic. *)
Example Apply_panics :
  (Apply nil_storageOption (Some 1%positive) sample_heap).1 = Panic
  ∧ (Apply (of_retryOption None) (Some 1%positive) sample_heap).1 = Panic
  ∧ (Apply (idempotent true) None sample_heap).1 = Panic.
Proof. by repeat split. Qed.

(** C10: for every option sequence, [initSettings] and [callSettings] on
    defaults that hold the zero settings hand back the same thing: both
    panic, or both return a pointer to equal settings; with applicable
    options that settings is the fold of the options' writes over the zero
    settings. *)
Theorem initSettings_as_callSettings_on_zero opts d h h0 :
  h0 !! d = Some settings.zero →
  pointee (initSettings opts h) = pointee (callSettings (Some d) opts h0)
  ∧ (Forall well_formed opts →
     pointee (initSettings opts h)
     = Ret (Some (foldl (λ v o, write o v) settings.zero opts))).
Proof.
  intros live.
  destruct (initSettings_run opts h) as (c & _ & ->).
  destruct (callSettings_run d settings.zero opts h0 live) as (c' & _ & _ & ->).
  split.
  - destruct (run opts settings.zero).1; simpl; [|done].
    by rewrite !lookup_insert_eq.
  - intros wf. rewrite (run_well_formed opts settings.zero wf). simpl.
    by rewrite lookup_insert_eq.
Qed.

Lemma initSettings_as_callSettings_on_zero_witness :
  pointee (initSettings sample_opts sample_heap)
  = pointee (callSettings (Some 3%positive) sample_opts
               (<[3%positive := settings.zero]> sample_heap))
  ∧ (Forall well_formed sample_opts →
     pointee (initSettings sample_opts sample_heap)
     = Ret (Some (foldl (λ v o, write o v) settings.zero sample_opts))).
Proof.
  apply (initSettings_as_callSettings_on_zero sample_opts 3%positive
           sample_heap (<[3%positive := settings.zero]> sample_heap)).
  reflexivity.
Defined.

(** ** The declared results of the interface methods *)

(** [ListHMACKey] is declared with the iterator as its only result; every
    other method, the list methods [ListBuckets] and [ListObjects] included,
    has [error] as its last result. *)
Lemma declared_results :
  storageClient.results storageClient.ListHMACKey
  = [storageClient.ty_HMACKeysIterator_ptr]
  ∧ ∀ m, m ≠ storageClient.ListHMACKey →
         list.last (storageClient.results m) = Some storageClient.ty_error.
Proof. split; [reflexivity|]. intros m Hm. by destruct m. Qed.

(** * Further properties of the resolver and the builders *)

(** ** Auxiliary facts *)

Lemma settings_eq (v w : settings.t) :
  settings.retry v = settings.retry w →
  settings.gax v = settings.gax w →
  settings.idempotent v = settings.idempotent w →
  settings.clientOption v = settings.clientOption w →
  v = w.
Proof. destruct v, w; simpl; congruence. Qed.

(** [Apply] on a target that is nil (or holds no object) panics, whatever
    the option. *)
Lemma Apply_dead o s h :
  s ≫= (h !!.) = None → Apply o s h = (Panic, h).
Proof.
  intros dead.
  assert (∀ w, assign s w h = (Panic, h)) as Hassign.
  { intros w. unfold assign. destruct s as [a|]; simpl in *; [|done].
    by rewrite dead. }
  destruct o as [|[r|]|[r|]|[r|]|[r|]]; simpl; try reflexivity;
    unfold gaxOption.Apply, retryOption.Apply, idempotentOption.Apply,
      clientOption.Apply, bind, deref, ret; simpl; apply Hassign.
Qed.

Lemma resolveOptions_dead s opts h :
  s ≫= (h !!.) = None →
  resolveOptions s opts h = (match opts with [] => Ret tt | _ => Panic end, h).
Proof.
  intros dead. destruct opts as [|o rest]; [done|].
  simpl. unfold bind. by rewrite (Apply_dead o s h dead).
Qed.

Lemma run_app_gen xs : ∀ ys S,
  run (xs ++ ys) S =
    match run xs S with
    | (Ret _, S') => run ys S'
    | (Panic, S') => (Panic, S')
    end.
Proof.
  induction xs as [|o rest IH]; intros ys S; simpl; [done|].
  destruct (well_formed o); [apply IH|done].
Qed.

Lemma run_Ret opts : ∀ S u S',
  run opts S = (Ret u, S') →
  Forall well_formed opts ∧ S' = foldl (λ v o, write o v) S opts.
Proof.
  induction opts as [|o rest IH]; intros S u S' Hrun; simpl in *.
  - split; [constructor|congruence].
  - destruct (well_formed o) eqn:Ho; [|done].
    destruct (IH _ _ _ Hrun) as [wf ->]. split; [|done].
    constructor; [by rewrite Ho|done].
Qed.

Lemma run_Panic_iff opts : ∀ S,
  (run opts S).1 = Panic ↔ Exists (λ o, well_formed o = false) opts.
Proof.
  induction opts as [|o rest IH]; intros S; simpl.
  - split; [done|]. by intros H%Exists_nil.
  - rewrite Exists_cons. destruct (well_formed o) eqn:Ho.
    + rewrite IH. split; [by right|]. by intros [?|?].
    + split; [by left|done].
Qed.

Lemma write_comm o1 o2 v :
  target o1 ≠ target o2 → write o1 (write o2 v) = write o2 (write o1 v).
Proof.
  destruct o1 as [|[r1|]|[r1|]|[r1|]|[r1|]],
           o2 as [|[r2|]|[r2|]|[r2|]|[r2|]]; simpl; done.
Qed.

Lemma write_absorb o o' v :
  target o = target o' → well_formed o' →
  write o' (write o v) = write o' v.
Proof.
  destruct o as [|[r1|]|[r1|]|[r1|]|[r1|]],
           o' as [|[r2|]|[r2|]|[r2|]|[r2|]]; simpl; done.
Qed.

Lemma foldl_write_absorb o o' mid : ∀ v,
  target o = target o' → well_formed o' →
  write o' (foldl (λ v o, write o v) (write o v) mid)
  = write o' (foldl (λ v o, write o v) v mid).
Proof.
  induction mid as [|m mid IH] using rev_ind; intros v Ht wf; simpl.
  - by apply write_absorb.
  - rewrite !foldl_snoc.
    destruct (decide (target m = target o')) as [Hm|Hm].
    + rewrite !(write_absorb m o') by done. by apply IH.
    + rewrite !(write_comm o' m) by done. f_equal. by apply IH.
Qed.

Lemma foldl_write_twice opts S :
  foldl (λ v o, write o v) (foldl (λ v o, write o v) S opts) opts
  = foldl (λ v o, write o v) S opts.
Proof.
  apply settings_eq.
  - rewrite !(foldl_write_last _ _ get_write_retry). unfold last_written.
    by destruct (list.last _).
  - rewrite !(foldl_write_last _ _ get_write_gax). unfold last_written.
    by destruct (list.last _).
  - rewrite !(foldl_write_last _ _ get_write_idempotent). unfold last_written.
    by destruct (list.last _).
  - rewrite !(foldl_write_last _ _ get_write_clientOption). unfold last_written.
    by destruct (list.last _).
Qed.

(** What the builders hand back, on the value level. *)
Lemma pointee_callSettings d D opts h :
  h !! d = Some D →
  pointee (callSettings (Some d) opts h) =
    match run opts D with
    | (Ret _, v) => Ret (Some v)
    | (Panic, _) => Panic
    end.
Proof.
  intros live.
  destruct (callSettings_run d D opts h live) as (c & _ & _ & ->).
  destruct (run opts D) as [[u|] v]; simpl; [|done].
  by rewrite lookup_insert_eq.
Qed.

Lemma pointee_initSettings opts h :
  pointee (initSettings opts h) =
    match run opts settings.zero with
    | (Ret _, v) => Ret (Some v)
    | (Panic, _) => Panic
    end.
Proof.
  destruct (initSettings_run opts h) as (c & _ & ->).
  destruct (run opts settings.zero) as [[u|] v]; simpl; [|done].
  by rewrite lookup_insert_eq.
Qed.

(** ** Panics *)

(** X1: on a live target, [resolveOptions] stops at the first option that
    cannot be applied (nil interface value or nil receiver): it panics, the
    options before it have been applied as if they were the whole sequence,
    and the options after it play no role. *)
Theorem resolveOptions_stops_at_first_inapplicable s S pre bad post h :
  h !! s = Some S →
  Forall well_formed pre →
  well_formed bad = false →
  (resolveOptions (Some s) pre h).1 = Ret tt
  ∧ resolveOptions (Some s) (pre ++ bad :: post) h
    = (Panic, (resolveOptions (Some s) pre h).2).
Proof.
  intros live wf Hbad.
  rewrite !(resolveOptions_run _ s S h live).
  rewrite (run_app pre (bad :: post) S wf), (run_well_formed pre S wf).
  simpl. by rewrite Hbad.
Qed.

Lemma resolveOptions_stops_at_first_inapplicable_witness :
  (resolveOptions (Some 1%positive) sample_opts sample_heap).1 = Ret tt
  ∧ resolveOptions (Some 1%positive)
      (sample_opts ++ of_idempotentOption None :: [idempotent true]) sample_heap
    = (Panic, (resolveOptions (Some 1%positive) sample_opts sample_heap).2).
Proof.
  apply (resolveOptions_stops_at_first_inapplicable 1%positive sample_defaults
           sample_opts (of_idempotentOption None) [idempotent true] sample_heap).
  - reflexivity.
  - apply sample_opts_well_formed.
  - reflexivity.
Defined.

(** X2: on live defaults [callSettings] panics exactly when some option of
    the sequence cannot be applied, wherever it stands; [initSettings]
    likewise.  Otherwise they return. *)
Theorem builders_panic_iff d D opts h :
  h !! d = Some D →
  ((callSettings (Some d) opts h).1 = Panic
   ↔ Exists (λ o, well_formed o = false) opts)
  ∧ ((initSettings opts h).1 = Panic
     ↔ Exists (λ o, well_formed o = false) opts).
Proof.
  intros live.
  destruct (callSettings_run d D opts h live) as (c & _ & _ & ->).
  destruct (initSettings_run opts h) as (c' & _ & ->). simpl.
  rewrite <- (run_Panic_iff opts D) at 1.
  rewrite <- (run_Panic_iff opts settings.zero).
  split.
  - by destruct (run opts D).1.
  - by destruct (run opts settings.zero).1.
Qed.

Lemma builders_panic_iff_witness :
  ((callSettings (Some 1%positive) [idempotent true; nil_storageOption]
      sample_heap).1 = Panic
   ↔ Exists (λ o, well_formed o = false) [idempotent true; nil_storageOption])
  ∧ ((initSettings [idempotent true; nil_storageOption] sample_heap).1 = Panic
     ↔ Exists (λ o, well_formed o = false)
         [idempotent true; nil_storageOption]).
Proof.
  apply (builders_panic_iff 1%positive sample_defaults
           [idempotent true; nil_storageOption] sample_heap).
  reflexivity.
Defined.

(** X3: [resolveOptions] on a nil settings pointer returns when there is no
    option and panics on the first option otherwise, whatever that option
    is; the heap is left as it was. *)
Theorem resolveOptions_nil_target opts h :
  resolveOptions None opts h
  = (match opts with [] => Ret tt | _ :: _ => Panic end, h).
Proof. by apply resolveOptions_dead. Qed.

(** ** Fields of the built settings *)

(** X4: with applicable options, the settings [callSettings] returns holds
    in each field the payload of the last call option that writes the field,
    and the defaults' own value (the same pointer, the same slice header)
    where no call option writes it. *)
Theorem callSettings_override_or_inherit d D opts h :
  h !! d = Some D →
  Forall well_formed opts →
  ∃ cs,
    pointee (callSettings (Some d) opts h) = Ret (Some cs)
    ∧ settings.retry cs = last_written retry_payload opts (settings.retry D)
    ∧ settings.gax cs = last_written gax_payload opts (settings.gax D)
    ∧ settings.idempotent cs
      = last_written idempotent_payload opts (settings.idempotent D)
    ∧ settings.clientOption cs
      = last_written clientOption_payload opts (settings.clientOption D).
Proof.
  intros live wf.
  exists (foldl (λ v o, write o v) D opts).
  rewrite (pointee_callSettings d D opts h live), (run_well_formed opts D wf).
  split; [done|].
  split; [apply (foldl_write_last _ _ get_write_retry)|].
  split; [apply (foldl_write_last _ _ get_write_gax)|].
  split; [apply (foldl_write_last _ _ get_write_idempotent)|].
  apply (foldl_write_last _ _ get_write_clientOption).
Qed.

Lemma callSettings_override_or_inherit_witness :
  ∃ cs,
    pointee (callSettings (Some 1%positive) sample_opts sample_heap)
      = Ret (Some cs)
    ∧ settings.retry cs
      = last_written retry_payload sample_opts (settings.retry sample_defaults)
    ∧ settings.gax cs
      = last_written gax_payload sample_opts (settings.gax sample_defaults)
    ∧ settings.idempotent cs
      = last_written idempotent_payload sample_opts
          (settings.idempotent sample_defaults)
    ∧ settings.clientOption cs
      = last_written clientOption_payload sample_opts
          (settings.clientOption sample_defaults).
Proof.
  apply (callSettings_override_or_inherit 1%positive sample_defaults
           sample_opts sample_heap).
  - reflexivity.
  - apply sample_opts_well_formed.
Defined.

(** X5: with applicable options, the settings [initSettings] returns holds
    in each field the payload of the last option that writes the field, and
    the zero value (nil retry config, nil slices, not idempotent) where no
    option writes it. *)
Theorem initSettings_fields opts h :
  Forall well_formed opts →
  ∃ cs,
    pointee (initSettings opts h) = Ret (Some cs)
    ∧ settings.retry cs = last_written retry_payload opts None
    ∧ settings.gax cs = last_written gax_payload opts nil_slice
    ∧ settings.idempotent cs = last_written idempotent_payload opts false
    ∧ settings.clientOption cs
      = last_written clientOption_payload opts nil_slice.
Proof.
  intros wf.
  exists (foldl (λ v o, write o v) settings.zero opts).
  rewrite (pointee_initSettings opts h), (run_well_formed opts _ wf).
  split; [done|].
  split; [apply (foldl_write_last _ _ get_write_retry)|].
  split; [apply (foldl_write_last _ _ get_write_gax)|].
  split; [apply (foldl_write_last _ _ get_write_idempotent)|].
  apply (foldl_write_last _ _ get_write_clientOption).
Qed.

Lemma initSettings_fields_witness :
  ∃ cs,
    pointee (initSettings sample_opts sample_heap) = Ret (Some cs)
    ∧ settings.retry cs = last_written retry_payload sample_opts None
    ∧ settings.gax cs = last_written gax_payload sample_opts nil_slice
    ∧ settings.idempotent cs
      = last_written idempotent_payload sample_opts false
    ∧ settings.clientOption cs
      = last_written clientOption_payload sample_opts nil_slice.
Proof.
  apply (initSettings_fields sample_opts sample_heap).
  apply sample_opts_well_formed.
Defined.

(** ** How option sequences compose *)

Lemma run_twice opts S : run (opts ++ opts) S = run opts S.
Proof.
  rewrite run_app_gen.
  destruct (run opts S) as [[[]|] S'] eqn:Hrun; [|done].
  destruct (run_Ret opts S tt S' Hrun) as [wf ->].
  by rewrite (run_well_formed opts _ wf), foldl_write_twice.
Qed.

Lemma run_swap pre o1 o2 post S :
  target o1 ≠ target o2 → well_formed o1 → well_formed o2 →
  run (pre ++ o1 :: o2 :: post) S = run (pre ++ o2 :: o1 :: post) S.
Proof.
  intros Ht wf1 wf2. rewrite !run_app_gen.
  destruct (run pre S) as [[u|] S']; [|done]. simpl.
  destruct (well_formed o1), (well_formed o2); try done.
  by rewrite write_comm.
Qed.

Lemma run_overwritten pre o mid o' post S :
  target o = target o' → well_formed o → well_formed o' →
  Forall well_formed mid →
  run (pre ++ o :: mid ++ o' :: post) S = run (pre ++ mid ++ o' :: post) S.
Proof.
  intros Ht wfo wfo' wfmid. rewrite !run_app_gen.
  destruct (run pre S) as [[u|] S']; [|done]. simpl.
  destruct (well_formed o); [|done].
  rewrite !(run_app mid) by done. simpl.
  destruct (well_formed o') eqn:Ho'; [|done].
  rewrite foldl_write_absorb; [done|done|by rewrite Ho'].
Qed.

(** Equal runs on the value give equal runs of the loop, on any target. *)
Lemma resolveOptions_by_run s opts1 opts2 h :
  (∀ S, run opts1 S = run opts2 S) →
  (opts1 = [] ↔ opts2 = []) →
  resolveOptions s opts1 h = resolveOptions s opts2 h.
Proof.
  intros Hrun Hnil.
  destruct (s ≫= (h !!.)) as [S|] eqn:Hs.
  - destruct s as [a|]; [|done]. simpl in Hs.
    by rewrite !(resolveOptions_run _ a S h Hs), Hrun.
  - rewrite !resolveOptions_dead by done.
    destruct opts1, opts2; try done.
    + by destruct Hnil as [Hnil _]; specialize (Hnil eq_refl).
    + by destruct Hnil as [_ Hnil]; specialize (Hnil eq_refl).
Qed.

(** X6: resolving a sequence twice in a row is resolving it once: for every
    target, heap and option sequence (applicable or not), the outcome and the
    heap are the same. *)
Theorem resolveOptions_twice s opts h :
  resolveOptions s (opts ++ opts) h = resolveOptions s opts h.
Proof.
  apply resolveOptions_by_run.
  - intros S. apply run_twice.
  - by destruct opts.
Qed.

(** X7: two neighbouring applicable options of different types can change
    places anywhere in a sequence without changing what [resolveOptions]
    does. *)
Theorem resolveOptions_swap s pre o1 o2 post h :
  target o1 ≠ target o2 →
  well_formed o1 →
  well_formed o2 →
  resolveOptions s (pre ++ o1 :: o2 :: post) h
  = resolveOptions s (pre ++ o2 :: o1 :: post) h.
Proof.
  intros Ht wf1 wf2. apply resolveOptions_by_run.
  - intros S. by apply run_swap.
  - by destruct pre.
Qed.

Lemma resolveOptions_swap_witness :
  resolveOptions (Some 1%positive)
    ([withGAXOptions nil_slice] ++ idempotent true
       :: withRetryConfig (Some 7%positive) :: [idempotent false]) sample_heap
  = resolveOptions (Some 1%positive)
      ([withGAXOptions nil_slice] ++ withRetryConfig (Some 7%positive)
         :: idempotent true :: [idempotent false]) sample_heap.
Proof.
  apply (resolveOptions_swap (Some 1%positive) [withGAXOptions nil_slice]
           (idempotent true) (withRetryConfig (Some 7%positive))
           [idempotent false] sample_heap).
  - discriminate.
  - exact I.
  - exact I.
Defined.

(** X8: an applicable option that is followed, after applicable options, by
    an applicable option of its own type has no effect: dropping it from the
    sequence changes nothing in what [resolveOptions] does. *)
Theorem resolveOptions_overwritten s pre o mid o' post h :
  target o = target o' →
  well_formed o →
  well_formed o' →
  Forall well_formed mid →
  resolveOptions s (pre ++ o :: mid ++ o' :: post) h
  = resolveOptions s (pre ++ mid ++ o' :: post) h.
Proof.
  intros Ht wfo wfo' wfmid. apply resolveOptions_by_run.
  - intros S. by apply run_overwritten.
  - split; intros Hnil.
    + by destruct pre.
    + by destruct pre, mid.
Qed.

Lemma resolveOptions_overwritten_witness :
  resolveOptions (Some 1%positive)
    ([] ++ withRetryConfig (Some 7%positive)
        :: [idempotent true] ++ withRetryConfig None :: []) sample_heap
  = resolveOptions (Some 1%positive)
      ([] ++ [idempotent true] ++ withRetryConfig None :: []) sample_heap.
Proof.
  apply (resolveOptions_overwritten (Some 1%positive) []
           (withRetryConfig (Some 7%positive)) [idempotent true]
           (withRetryConfig None) [] sample_heap).
  - reflexivity.
  - exact I.
  - exact I.
  - repeat constructor.
Defined.

(** ** The builders, one after another *)

(** X9: building call settings on top of call settings is building them in
    one go: with applicable [opts1], [callSettings] over the result of
    [callSettings(d, opts1)] with [opts2] hands back what
    [callSettings(d, opts1 ++ opts2)] hands back, and leaves the first result
    as it was. *)
Theorem callSettings_layered d D opts1 opts2 h :
  h !! d = Some D →
  Forall well_formed opts1 →
  ∃ c h1,
    callSettings (Some d) opts1 h = (Ret (Some c), h1)
    ∧ pointee (callSettings (Some c) opts2 h1)
      = pointee (callSettings (Some d) (opts1 ++ opts2) h)
    ∧ (callSettings (Some c) opts2 h1).2 !! c = h1 !! c.
Proof.
  intros live wf.
  destruct (callSettings_run d D opts1 h live) as (c & Hc & Hcd & Hcall).
  rewrite (run_well_formed opts1 D wf) in Hcall. simpl in Hcall.
  eexists c, _. split; [exact Hcall|].
  set (D1 := foldl (λ v o, write o v) D opts1).
  assert (<[c := D1]> h !! c = Some D1) as live1 by apply lookup_insert_eq.
  split.
  - rewrite (pointee_callSettings c D1 opts2 _ live1).
    rewrite (pointee_callSettings d D (opts1 ++ opts2) h live).
    by rewrite (run_app opts1 opts2 D wf).
  - destruct (callSettings_run c D1 opts2 _ live1) as (c2 & _ & Hne & ->).
    simpl. by rewrite lookup_insert_ne.
Qed.

Lemma callSettings_layered_witness :
  ∃ c h1,
    callSettings (Some 1%positive) sample_opts sample_heap = (Ret (Some c), h1)
    ∧ pointee (callSettings (Some c) [idempotent true] h1)
      = pointee (callSettings (Some 1%positive)
                   (sample_opts ++ [idempotent true]) sample_heap)
    ∧ (callSettings (Some c) [idempotent true] h1).2 !! c = h1 !! c.
Proof.
  apply (callSettings_layered 1%positive sample_defaults sample_opts
           [idempotent true] sample_heap).
  - reflexivity.
  - apply sample_opts_well_formed.
Defined.

(** X10: a client built with [initSettings(copts)] and called with [opts]:
    with applicable [copts], [callSettings] over the client's settings hands
    back what [initSettings(copts ++ opts)] hands back, and the client's
    settings are as they were. *)
Theorem initSettings_then_callSettings copts opts h :
  Forall well_formed copts →
  ∃ c h1,
    initSettings copts h = (Ret (Some c), h1)
    ∧ pointee (callSettings (Some c) opts h1)
      = pointee (initSettings (copts ++ opts) h)
    ∧ (callSettings (Some c) opts h1).2 !! c = h1 !! c.
Proof.
  intros wf.
  destruct (initSettings_run copts h) as (c & Hc & Hinit).
  rewrite (run_well_formed copts _ wf) in Hinit. simpl in Hinit.
  eexists c, _. split; [exact Hinit|].
  set (D1 := foldl (λ v o, write o v) settings.zero copts).
  assert (<[c := D1]> h !! c = Some D1) as live1 by apply lookup_insert_eq.
  split.
  - rewrite (pointee_callSettings c D1 opts _ live1).
    rewrite (pointee_initSettings (copts ++ opts) h).
    by rewrite (run_app copts opts _ wf).
  - destruct (callSettings_run c D1 opts _ live1) as (c2 & _ & Hne & ->).
    simpl. by rewrite lookup_insert_ne.
Qed.

Lemma initSettings_then_callSettings_witness :
  ∃ c h1,
    initSettings sample_opts sample_heap = (Ret (Some c), h1)
    ∧ pointee (callSettings (Some c) [idempotent true] h1)
      = pointee (initSettings (sample_opts ++ [idempotent true]) sample_heap)
    ∧ (callSettings (Some c) [idempotent true] h1).2 !! c = h1 !! c.
Proof.
  apply (initSettings_then_callSettings sample_opts [idempotent true]
           sample_heap).
  apply sample_opts_well_formed.
Defined.

(** X11: two calls on the same defaults do not see each other: after
    [callSettings(d, opts1)] has returned [c1], a second
    [callSettings(d, opts2)] hands back what it would have handed back
    without the first call, leaves the first result as it was, and, when it
    returns, returns a pointer other than [c1] and [d]. *)
Theorem callSettings_calls_independent d D opts1 opts2 h :
  h !! d = Some D →
  Forall well_formed opts1 →
  ∃ c1 h1,
    callSettings (Some d) opts1 h = (Ret (Some c1), h1)
    ∧ pointee (callSettings (Some d) opts2 h1)
      = pointee (callSettings (Some d) opts2 h)
    ∧ (callSettings (Some d) opts2 h1).2 !! c1 = h1 !! c1
    ∧ ∀ c2, (callSettings (Some d) opts2 h1).1 = Ret (Some c2) →
            c2 ≠ c1 ∧ c2 ≠ d.
Proof.
  intros live wf.
  destruct (callSettings_run d D opts1 h live) as (c1 & Hc1 & Hc1d & Hcall).
  rewrite (run_well_formed opts1 D wf) in Hcall. simpl in Hcall.
  eexists c1, _. split; [exact Hcall|].
  set (h1 := <[c1 := foldl (λ v o, write o v) D opts1]> h).
  assert (h1 !! d = Some D) as live1.
  { unfold h1. by rewrite lookup_insert_ne. }
  split.
  { by rewrite (pointee_callSettings d D opts2 h1 live1),
               (pointee_callSettings d D opts2 h live). }
  destruct (callSettings_run d D opts2 h1 live1) as (c2 & Hc2 & Hc2d & ->).
  assert (c2 ≠ c1) as Hne.
  { intros ->. unfold h1 in Hc2. by rewrite lookup_insert_eq in Hc2. }
  simpl. split; [by rewrite lookup_insert_ne|].
  intros c Hret. destruct (run opts2 D).1; [|done].
  by injection Hret as <-.
Qed.

Lemma callSettings_calls_independent_witness :
  ∃ c1 h1,
    callSettings (Some 1%positive) sample_opts sample_heap = (Ret (Some c1), h1)
    ∧ pointee (callSettings (Some 1%positive) [idempotent true] h1)
      = pointee (callSettings (Some 1%positive) [idempotent true] sample_heap)
    ∧ (callSettings (Some 1%positive) [idempotent true] h1).2 !! c1 = h1 !! c1
    ∧ ∀ c2, (callSettings (Some 1%positive) [idempotent true] h1).1
            = Ret (Some c2) →
            c2 ≠ c1 ∧ c2 ≠ 1%positive.
Proof.
  apply (callSettings_calls_independent 1%positive sample_defaults sample_opts
           [idempotent true] sample_heap).
  - reflexivity.
  - apply sample_opts_well_formed.
Defined.

(** ** What is allocated and what is left alone *)

(** X12: [initSettings] never returns nil, allocates exactly one settings
    object, at an address that held none, and leaves every object that
    existed as it was, for every option sequence and also when it panics. *)
Theorem initSettings_allocates_one opts h :
  (initSettings opts h).1 ≠ Ret None
  ∧ ∃ c, h !! c = None
         ∧ dom (initSettings opts h).2 = {[c]} ∪ dom h
         ∧ (∀ a, is_Some (h !! a) → (initSettings opts h).2 !! a = h !! a)
         ∧ ((initSettings opts h).1 = Panic ∨ (initSettings opts h).1 = Ret (Some c)).
Proof.
  destruct (initSettings_run opts h) as (c & Hc & ->). simpl.
  split; [by destruct (run opts settings.zero).1|].
  exists c. split; [done|]. split; [apply dom_insert_L|]. split.
  - intros a [x Hx]. rewrite lookup_insert_ne; [done|congruence].
  - destruct (run opts settings.zero).1; [by right|by left].
Qed.

(** X13: [resolveOptions] allocates nothing and writes to its target only:
    for every target (nil or not), heap and option sequence, the heap after
    it has the objects the heap before had, and every object other than the
    target is as it was. *)
Theorem resolveOptions_frame s opts h :
  dom (resolveOptions s opts h).2 = dom h
  ∧ ∀ a, s ≠ Some a → (resolveOptions s opts h).2 !! a = h !! a.
Proof.
  destruct (s ≫= (h !!.)) as [S|] eqn:Hs.
  - destruct s as [t|]; [|done]. simpl in Hs.
    rewrite (resolveOptions_run opts t S h Hs). simpl. split.
    + by apply dom_insert_lookup_L.
    + intros a Ha. rewrite lookup_insert_ne; [done|congruence].
  - by rewrite resolveOptions_dead.
Qed.
